(** * go.netutil: IdleTracker and acceptedConnection

    A shallow embedding of the two IdleTracker implementations
    ([package netutil] and [package idletracker]) and of the single-use
    listener [acceptedConnection] with its [cascadingCloser].

    Time is modelled as nanoseconds in [Z] ([time.Time] and
    [time.Duration]); the connections tracked by the
    [map[net.Conn]struct{}] are identified by natural numbers and the map
    is a [gset]. *)

From Stdlib Require Import ZArith Lia List.
From stdpp Require Import base gmap sets list.
Import ListNotations.

Open Scope Z_scope.

(** ** Shared vocabulary *)

(** The error values the code passes around: [context.DeadlineExceeded],
    [context.Canceled], [os.ErrClosed], and any other error (as returned by
    [net.FileConn], or by a context with a custom cause). *)
Inductive error :=
| DeadlineExceeded
| Canceled
| ErrClosed
| ErrOther (n : nat).

Global Instance error_eq_dec : EqDecision error.
Proof. solve_decision. Qed.

Definition time := Z.
Definition duration := Z.

Definition Millisecond : duration := 1000000.
Definition Minute : duration := 60 * 1000 * Millisecond.

(** [time.Time{}]: January 1, year 1, 00:00:00 UTC, in Unix nanoseconds. *)
Definition zero_time : time := -62135596800 * 1000 * Millisecond.

(** ** IdleTracker *)

Module IdleTracker.

(** [http.ConnState] *)
Inductive http_ConnState :=
| StateNew
| StateActive
| StateIdle
| StateHijacked
| StateClosed.

Definition conn := nat.

(** A parent [context.Context]: [ctx_cancellable] is false when [Done()]
    returns [nil] (e.g. [context.Background()]); [ctx_err] is what [Err()]
    returns, [Some _] exactly once the done channel is closed. *)
Record context := {
  ctx_cancellable : bool;
  ctx_err : option error;
}.

(** A [*time.Timer]: whether it is armed, and when it fires. *)
Record timer := {
  t_running : bool;
  t_when : time;
}.

Definition NewTimer (now : time) (d : duration) : timer :=
  {| t_running := true; t_when := now + d |}.

Definition Stop (t : timer) : timer :=
  {| t_running := false; t_when := t_when t |}.

Definition Reset (now : time) (t : timer) (d : duration) : timer :=
  {| t_running := true; t_when := now + d |}.

(** The goroutine [NewIdleTracker] may start: none, the one blocked on
    [<-t.C] (parent cannot be cancelled), the one blocked in the
    [select] on [parent.Done()] and [t.C], or one that has finished. *)
Inductive waiter :=
| NoWaiter
| TimerWaiter
| RaceWaiter
| Finished.

(** The two packages of the repository that ship an [IdleTracker]. *)
Inductive pkg :=
| Netutil      (* src/unnamed/part_002, package netutil *)
| Idletracker. (* src/unnamed/part_001, package idletracker *)

(** The struct, with the current state of its [parent], the closed-ness
    of [done] and the state of the background goroutine. *)
Record IdleTracker := {
  dangling : gset conn;
  timer_ : timer;
  deadline : time;
  patience : duration;
  parent : context;
  done : bool;
  permErr : option error;
  waiter_ : waiter;
}.

Definition set_parent (i : IdleTracker) (p : context) : IdleTracker :=
  {| dangling := dangling i; timer_ := timer_ i; deadline := deadline i;
     patience := patience i; parent := p; done := done i;
     permErr := permErr i; waiter_ := waiter_ i |}.

Definition set_timer (i : IdleTracker) (t : timer) : IdleTracker :=
  {| dangling := dangling i; timer_ := t; deadline := deadline i;
     patience := patience i; parent := parent i; done := done i;
     permErr := permErr i; waiter_ := waiter_ i |}.

(** The goroutine's last two statements: [i.permErr = e] (or whatever the
    branch leaves in it) followed by [close(doneChan)]. *)
Definition finish (i : IdleTracker) (e : option error) : IdleTracker :=
  {| dangling := dangling i; timer_ := timer_ i; deadline := deadline i;
     patience := patience i; parent := parent i; done := true;
     permErr := e; waiter_ := Finished |}.

(** [NewIdleTracker(parent, patience)], called at time [now]. The code
    arms the timer before it reads [time.Now()]; both are taken here at
    the one instant [now], so the timer's [t_when] only approximates the
    firing time and is not compared with [deadline] anywhere. *)
Definition NewIdleTracker (parent : context) (patience : duration) (now : time)
  : IdleTracker :=
  let patience := if patience <=? 0 then 15 * Minute else patience in
  let t := NewTimer now patience in
  let mk d dn e w :=
    {| dangling := ∅; timer_ := t; deadline := d; patience := patience;
       parent := parent; done := dn; permErr := e; waiter_ := w |} in
  if negb (ctx_cancellable parent) then
    (* parentDone == nil: go func() { <-t.C; ... }() *)
    mk (now + patience) false None TimerWaiter
  else
    match ctx_err parent with
    | Some e =>
        (* case <-parentDone: permErr = parent.Err(); deadline = time.Now() *)
        mk now true (Some e) NoWaiter
    | None =>
        (* default: go func() { select { ... } }() *)
        mk (now + patience) false None RaceWaiter
    end.

(** The [case <-t.C:] branch of the racing goroutine, per package.
    netutil:      [i.permErr = context.DeadlineExceeded]
    idletracker:  [if i.permErr != nil { i.permErr = context.DeadlineExceeded }] *)
Definition race_timer_branch (p : pkg) (e : option error) : option error :=
  match p with
  | Netutil => Some DeadlineExceeded
  | Idletracker => if e then Some DeadlineExceeded else e
  end.

(** [(t *IdleTracker).ConnState(conn, state)], called at time [now]; as
    in [NewIdleTracker], [Reset] and [time.Now()] share that instant. *)
Definition ConnState (i : IdleTracker) (c : conn) (state : http_ConnState) (now : time)
  : IdleTracker :=
  let oldActive := size (dangling i) in
  let with_d d t dl :=
    {| dangling := d; timer_ := t; deadline := dl; patience := patience i;
       parent := parent i; done := done i; permErr := permErr i;
       waiter_ := waiter_ i |} in
  match state with
  | StateNew | StateActive =>
      let d := {[ c ]} ∪ dangling i in
      let t := if Nat.eqb oldActive 0 then Stop (timer_ i) else timer_ i in
      with_d d t (deadline i)
  | StateHijacked =>
      with_d (dangling i ∖ {[ c ]}) (timer_ i) (deadline i)
  | StateIdle | StateClosed =>
      let d := dangling i ∖ {[ c ]} in
      if Nat.ltb 0 oldActive && Nat.eqb (size d) 0 then
        let t := Reset now (Stop (timer_ i)) (patience i) in
        with_d d t (now + patience i)
      else with_d d (timer_ i) (deadline i)
  end.

(** [(t *IdleTracker).Deadline()]: the named results start as
    [time.Time{}] and [false]. *)
Definition Deadline (i : IdleTracker) : time * bool :=
  if Nat.ltb 0 (size (dangling i)) then (zero_time, false)
  else (deadline i, true).

(** [(t *IdleTracker).Err()] *)
Definition Err (i : IdleTracker) : option error := permErr i.

(** Whether the channel returned by [(t *IdleTracker).Done()] is closed. *)
Definition Done_closed (i : IdleTracker) : bool := done i.

(** Events of the environment: a [ConnState] notification from the
    server, the timer firing, and the parent being cancelled with an
    error. A goroutine parked in a [select] is woken by the first channel
    operation that makes one of its cases ready, with that case chosen;
    its remaining statements are taken as one step with the wake-up. *)
Inductive event :=
| EvConnState (c : conn) (st : http_ConnState) (now : time)
| EvTimerFire
| EvParentCancel (e : error).

Definition step (p : pkg) (i : IdleTracker) (ev : event) : IdleTracker :=
  match ev with
  | EvConnState c st now => ConnState i c st now
  | EvTimerFire =>
      if t_running (timer_ i) then
        let i' := set_timer i (Stop (timer_ i)) in
        match waiter_ i with
        | TimerWaiter => finish i' (Some DeadlineExceeded)
        | RaceWaiter => finish i' (race_timer_branch p (permErr i'))
        | _ => i' (* the value stays buffered in t.C *)
        end
      else i
  | EvParentCancel e =>
      if ctx_cancellable (parent i) then
        match ctx_err (parent i) with
        | Some _ => i (* cancelling twice changes nothing *)
        | None =>
            let i' := set_parent i {| ctx_cancellable := true; ctx_err := Some e |} in
            match waiter_ i with
            | RaceWaiter => finish i' (Some e) (* permErr = parent.Err() *)
            | _ => i'
            end
        end
      else i
  end.

Definition run (p : pkg) (i : IdleTracker) (evs : list event) : IdleTracker :=
  fold_left (step p) evs i.

(** The [ConnState] notifications alone, as a server emits them. *)
Definition conn_events (evs : list (conn * http_ConnState * time)) : list event :=
  map (fun '(c, st, now) => EvConnState c st now) evs.

Definition is_hijack (st : http_ConnState) : bool :=
  match st with StateHijacked => true | _ => false end.

Definition no_hijack (evs : list (conn * http_ConnState * time)) : bool :=
  forallb (fun '(_, st, _) => negb (is_hijack st)) evs.

(** The timer is armed exactly when the set is empty; the converse
    direction is tracked only while [h] holds. *)
Definition timer_inv (h : bool) (i : IdleTracker) : Prop :=
  (t_running (timer_ i) = true -> dangling i = ∅) /\
  (h = true -> dangling i = ∅ -> t_running (timer_ i) = true).

(** The ghost time of the last deadline computation: the event recomputes
    [deadline] exactly when [ConnState] takes its idle-or-closed branch
    with a non-empty set that the deletion empties. *)
Definition recomputes (i : IdleTracker) (ev : event) : option time :=
  match ev with
  | EvConnState c (StateIdle | StateClosed) now =>
      if Nat.ltb 0 (size (dangling i)) && Nat.eqb (size (dangling i ∖ {[ c ]})) 0
      then Some now else None
  | _ => None
  end.

Fixpoint run_last (p : pkg) (i : IdleTracker) (tc : time) (evs : list event)
  : IdleTracker * time :=
  match evs with
  | [] => (i, tc)
  | ev :: evs' =>
      let tc' := match recomputes i ev with Some n => n | None => tc end in
      run_last p (step p i ev) tc' evs'
  end.

Definition deadline_inv (i : IdleTracker) (tc : time) : Prop :=
  0 < patience i /\ deadline i <= tc + patience i.

(** Where the background goroutine is, and what that says about the
    terminal error and the done channel. *)
Definition waiter_inv (p : pkg) (i : IdleTracker) : Prop :=
  match waiter_ i with
  | TimerWaiter | RaceWaiter => permErr i = None /\ done i = false
  | NoWaiter | Finished => done i = true /\ (p = Netutil -> permErr i <> None)
  end.

(** A parent that is cancellable and not yet cancelled at construction. *)
Definition live_parent : context := {| ctx_cancellable := true; ctx_err := None |}.

(** The last state reported for connection [c] by the [ConnState]
    notifications of a trace, if any. *)
Fixpoint last_state (c : conn) (evs : list event) : option http_ConnState :=
  match evs with
  | [] => None
  | EvConnState c' st _ :: evs' =>
      match last_state c evs' with
      | Some s => Some s
      | None => if Nat.eqb c c' then Some st else None
      end
  | _ :: evs' => last_state c evs'
  end.

Definition reported_live (c : conn) (evs : list event) : bool :=
  match last_state c evs with
  | Some (StateNew | StateActive) => true
  | _ => false
  end.

(** The notifications of a trace carry times that never go back, from [t] on. *)
Fixpoint stamps_from (t : time) (evs : list event) : bool :=
  match evs with
  | [] => true
  | EvConnState _ _ now :: evs' => (t <=? now) && stamps_from now evs'
  | _ :: evs' => stamps_from t evs'
  end.

Fixpoint last_stamp (t : time) (evs : list event) : time :=
  match evs with
  | [] => t
  | EvConnState _ _ now :: evs' => last_stamp now evs'
  | _ :: evs' => last_stamp t evs'
  end.

(** Everything but [permErr] is shared; used to compare the two packages. *)
Definition with_err (i : IdleTracker) (e : option error) : IdleTracker :=
  {| dangling := dangling i; timer_ := timer_ i; deadline := deadline i;
     patience := patience i; parent := parent i; done := done i;
     permErr := e; waiter_ := waiter_ i |}.

(** [b] is [a] with possibly another [permErr]: equal, or [nil] where
    [a] has latched [context.DeadlineExceeded] and its goroutine ended. *)
Definition agree (a b : IdleTracker) : Prop :=
  exists eb, b = with_err a eb /\
    (eb = permErr a \/
     (permErr a = Some DeadlineExceeded /\ eb = None /\ waiter_ a = Finished)).

End IdleTracker.

(** ** acceptedConnection *)

Module Listener.

(** A [chan struct{}] that nobody sends on: only its closed-ness matters. *)
Record chan := { chan_closed : bool }.

Definition make_chan : chan := {| chan_closed := false |}.

(** [close(ch)]; [None] is the run-time panic on a closed channel. *)
Definition close (ch : chan) : option chan :=
  if chan_closed ch then None else Some {| chan_closed := true |}.

(** The receive case [case _, open := <-ch] of a [select] with a
    [default]: ready only once the channel is closed (no goroutine ever
    sends on it), and then it yields [open = false]. *)
Definition recv_ready (ch : chan) : option bool :=
  if chan_closed ch then Some false else None.

(** [(c *cascadingCloser).Close()], its effect on [closeChan]; the
    boolean says whether [close(c.closeChan)] was executed. The final
    [c.Conn.Close()] acts on the connection only. *)
Definition cascadingCloser_Close (ch : chan) : option (chan * bool) :=
  match recv_ready ch with
  | Some open =>
      if open then option_map (fun ch' => (ch', true)) (close ch)
      else Some (ch, false)
  | None => option_map (fun ch' => (ch', true)) (close ch)
  end.

(** The outcome of [net.FileConn(c.file)]. *)
Inductive fileconn_result :=
| FileConnOk
| FileConnErr (e : error).

(** What [Accept] returns: the wrapped connection, an error, or (in
    [tailWaitUntilFirstIsDone]) a wait on [doneChan] that ends by
    returning [os.ErrClosed]. *)
Inductive accept_result :=
| AcceptConn
| AcceptErr (e : error)
| AcceptWaitThenClosed.

Record acceptedConnection := {
  file_open : bool;
  doneChan : option chan;
  permErr : option error;
}.

(** The value built by [AcceptedConnection] once [net.FileListener]
    succeeded. *)
Definition accepted_from_fd : acceptedConnection :=
  {| file_open := true; doneChan := None; permErr := None |}.

(** [AcceptedConnection(connection)], given the outcome of
    [net.FileListener]. *)
Definition AcceptedConnection (filelistener_err : option error)
  : error + acceptedConnection :=
  match filelistener_err with
  | Some e => inl e
  | None => inr accepted_from_fd
  end.

Definition tailWaitUntilFirstIsDone (ch : chan) : accept_result :=
  if chan_closed ch then AcceptErr ErrClosed else AcceptWaitThenClosed.

(** [(c *acceptedConnection).Accept()], with the outcome [fc] that
    [net.FileConn] would have. *)
Definition Accept (c : acceptedConnection) (fc : fileconn_result)
  : acceptedConnection * accept_result :=
  match permErr c with
  | Some e => (c, AcceptErr e)
  | None =>
      match doneChan c with
      | Some ch => (c, tailWaitUntilFirstIsDone ch)
      | None =>
          match fc with
          | FileConnErr e =>
              ({| file_open := file_open c; doneChan := None; permErr := Some e |},
               AcceptErr e)
          | FileConnOk =>
              ({| file_open := file_open c; doneChan := Some make_chan; permErr := None |},
               AcceptConn)
          end
      end
  end.

(** [(c *acceptedConnection).Close()]; closing a closed [*os.File]
    reports an error wrapping [os.ErrClosed]. *)
Definition Close (c : acceptedConnection) : acceptedConnection * option error :=
  let pe := match permErr c with None => Some ErrClosed | Some e => Some e end in
  ({| file_open := false; doneChan := doneChan c; permErr := pe |},
   if file_open c then None else Some ErrClosed).

(** Calls made on the listener and on the connection it handed out. All
    calls are taken one after the other; an [Accept] that waits is
    recorded with its final result. *)
Inductive levent :=
| LAccept (fc : fileconn_result)
| LClose
| ConnClose.

Inductive loutput :=
| OAccept (r : accept_result)
| OClose (r : option error)
| OConnClose (closed_now : bool)
| OPanic
| ONoConn.

Definition lstep (c : acceptedConnection) (ev : levent) : acceptedConnection * loutput :=
  match ev with
  | LAccept fc => let '(c', r) := Accept c fc in (c', OAccept r)
  | LClose => let '(c', r) := Close c in (c', OClose r)
  | ConnClose =>
      match doneChan c with
      | None => (c, ONoConn)
      | Some ch =>
          match cascadingCloser_Close ch with
          | None => (c, OPanic)
          | Some (ch', b) =>
              ({| file_open := file_open c; doneChan := Some ch'; permErr := permErr c |},
               OConnClose b)
          end
      end
  end.

Fixpoint lrun (c : acceptedConnection) (evs : list levent)
  : acceptedConnection * list loutput :=
  match evs with
  | [] => (c, [])
  | ev :: evs' =>
      let '(c', o) := lstep c ev in
      let '(c'', os) := lrun c' evs' in
      (c'', o :: os)
  end.




Definition is_conn_close (o : loutput) : bool :=
  match o with OConnClose _ => true | _ => false end.

Definition chan_closes (outs : list loutput) : nat :=
  length (List.filter (fun o => match o with OConnClose true => true | _ => false end) outs).

(** Once the connection has been handed out, [permErr] can only be
    [os.ErrClosed]: [net.FileConn] is not called again. *)
Definition linv (c : acceptedConnection) : Prop :=
  doneChan c <> None -> permErr c = None \/ permErr c = Some ErrClosed.

Definition chan_closed_flag (c : acceptedConnection) : bool :=
  match doneChan c with Some ch => chan_closed ch | None => false end.

Definition is_close_event (ev : levent) : bool :=
  match ev with LClose | ConnClose => true | LAccept _ => false end.

(** The listener or its connection has been closed. *)
Definition closed_any (c : acceptedConnection) : bool :=
  match permErr c with Some _ => true | None => chan_closed_flag c end.






End Listener.

(** ** Proofs about IdleTracker *)

Module IdleTrackerProofs.
Import IdleTracker.

Lemma size_zero_iff (X : gset conn) : size X = 0%nat <-> X = ∅.
Proof.
  rewrite size_empty_iff. split; [apply leibniz_equiv | intros ->; done].
Qed.

Lemma run_app p i evs1 evs2 : run p i (evs1 ++ evs2) = run p (run p i evs1) evs2.
Proof. unfold run. apply fold_left_app. Qed.

(** [ConnState] touches neither the error, the done channel, the
    goroutine, the parent nor the patience. *)
Lemma ConnState_frame i c st now :
  let i' := ConnState i c st now in
  permErr i' = permErr i /\ done i' = done i /\ waiter_ i' = waiter_ i /\
  patience i' = patience i /\ parent i' = parent i.
Proof.
  unfold ConnState. destruct st; simpl; repeat case_match; simpl; auto.
Qed.

Lemma NewIdleTracker_patience_pos par pat t0 :
  0 < patience (NewIdleTracker par pat t0).
Proof.
  unfold NewIdleTracker, Minute, Millisecond.
  destruct (Z.leb_spec pat 0); destruct (ctx_cancellable par), (ctx_err par);
    simpl; lia.
Qed.

Lemma step_patience p i ev : patience (step p i ev) = patience i.
Proof.
  destruct ev; simpl.
  - apply (ConnState_frame i c st now).
  - repeat case_match; reflexivity.
  - repeat case_match; reflexivity.
Qed.

(** *** Timer versus dangling set *)

Lemma timer_inv_ConnState h i c st now :
  timer_inv h i -> timer_inv (h && negb (is_hijack st)) (ConnState i c st now).
Proof.
  intros [Hr Hh]. unfold ConnState.
  destruct st; simpl.
  - destruct (Nat.eqb_spec (size (dangling i)) 0) as [E|E]; simpl; split; intros.
    + discriminate.
    + exfalso. set_solver.
    + exfalso. apply E. rewrite Hr; [apply size_empty | done].
    + exfalso. set_solver.
  - destruct (Nat.eqb_spec (size (dangling i)) 0) as [E|E]; simpl; split; intros.
    + discriminate.
    + exfalso. set_solver.
    + exfalso. apply E. rewrite Hr; [apply size_empty | done].
    + exfalso. set_solver.
  - destruct (Nat.ltb_spec 0 (size (dangling i))) as [L|L];
      destruct (Nat.eqb_spec (size (dangling i ∖ {[c]})) 0) as [E|E];
      simpl; split; intros.
    + apply size_zero_iff. exact E.
    + reflexivity.
    + rewrite Hr by done. set_solver.
    + exfalso. apply E. apply size_zero_iff. done.
    + rewrite Hr by done. set_solver.
    + apply Hh; [destruct h; done|]. apply size_zero_iff. lia.
    + rewrite Hr by done. set_solver.
    + apply Hh; [destruct h; done|]. apply size_zero_iff. lia.
  - split; intros.
    + rewrite Hr by done. set_solver.
    + rewrite andb_false_r in *. discriminate.
  - destruct (Nat.ltb_spec 0 (size (dangling i))) as [L|L];
      destruct (Nat.eqb_spec (size (dangling i ∖ {[c]})) 0) as [E|E];
      simpl; split; intros.
    + apply size_zero_iff. exact E.
    + reflexivity.
    + rewrite Hr by done. set_solver.
    + exfalso. apply E. apply size_zero_iff. done.
    + rewrite Hr by done. set_solver.
    + apply Hh; [destruct h; done|]. apply size_zero_iff. lia.
    + rewrite Hr by done. set_solver.
    + apply Hh; [destruct h; done|]. apply size_zero_iff. lia.
Qed.

Lemma timer_inv_run p h i evs :
  timer_inv h i -> timer_inv (h && no_hijack evs) (run p i (conn_events evs)).
Proof.
  revert h i. induction evs as [|[[c st] now] evs IH]; intros h i Hi; simpl.
  - rewrite andb_true_r. exact Hi.
  - rewrite andb_assoc. apply IH. apply timer_inv_ConnState. exact Hi.
Qed.

Lemma timer_inv_New par pat t0 : timer_inv true (NewIdleTracker par pat t0).
Proof.
  unfold NewIdleTracker. split; destruct (ctx_cancellable par), (ctx_err par); simpl; auto.
Qed.


(** *** Deadline bookkeeping *)

Lemma deadline_inv_step p i tc ev :
  deadline_inv i tc ->
  deadline_inv (step p i ev) (match recomputes i ev with Some n => n | None => tc end).
Proof.
  intros [Hp Hd]. unfold deadline_inv. rewrite step_patience. split; [exact Hp|].
  destruct ev as [c st now| |e]; simpl.
  - unfold ConnState. destruct st; simpl; try lia;
      repeat case_match; simpl in *; try lia; try discriminate.
  - repeat case_match; simpl; lia.
  - repeat case_match; simpl; lia.
Qed.

Lemma deadline_inv_run p i tc evs :
  deadline_inv i tc ->
  deadline_inv (fst (run_last p i tc evs)) (snd (run_last p i tc evs)).
Proof.
  revert i tc. induction evs as [|ev evs IH]; intros i tc H; simpl.
  - exact H.
  - apply IH. apply deadline_inv_step. exact H.
Qed.

Lemma deadline_inv_New par pat t0 : deadline_inv (NewIdleTracker par pat t0) t0.
Proof.
  split; [apply NewIdleTracker_patience_pos|].
  pose proof (NewIdleTracker_patience_pos par pat t0) as P.
  unfold NewIdleTracker in *.
  destruct (ctx_cancellable par), (ctx_err par); simpl in *; lia.
Qed.

(** *** The background goroutine *)

Lemma waiter_inv_New p par pat t0 : waiter_inv p (NewIdleTracker par pat t0).
Proof.
  unfold NewIdleTracker, waiter_inv.
  destruct (ctx_cancellable par), (ctx_err par); simpl; auto;
    split; try reflexivity; intros _; discriminate.
Qed.

Lemma waiter_inv_step p i ev : waiter_inv p i -> waiter_inv p (step p i ev).
Proof.
  unfold waiter_inv. intros H. destruct ev as [c st now| |e]; simpl.
  - destruct (ConnState_frame i c st now) as (-> & -> & -> & _). exact H.
  - destruct (t_running (timer_ i)); [|exact H].
    destruct (waiter_ i) eqn:W; simpl; rewrite ?W in *; try exact H;
      (split; [reflexivity|]; intros ->; simpl; discriminate).
  - destruct (ctx_cancellable (parent i)); [|exact H].
    destruct (ctx_err (parent i)); [exact H|].
    destruct (waiter_ i) eqn:W; simpl; rewrite ?W in *; try exact H;
      (split; [reflexivity|]; intros _; discriminate).
Qed.

Lemma waiter_inv_run p i evs : waiter_inv p i -> waiter_inv p (run p i evs).
Proof.
  revert i. induction evs as [|ev evs IH]; intros i H; simpl.
  - exact H.
  - apply IH. apply waiter_inv_step. exact H.
Qed.

(** Once the goroutine is gone, nothing writes [permErr] any more. *)
Lemma step_permErr_idle p i ev :
  waiter_ i <> TimerWaiter -> waiter_ i <> RaceWaiter ->
  permErr (step p i ev) = permErr i /\
  waiter_ (step p i ev) <> TimerWaiter /\ waiter_ (step p i ev) <> RaceWaiter.
Proof.
  intros T R. destruct ev as [c st now| |e]; simpl.
  - destruct (ConnState_frame i c st now) as (-> & _ & -> & _). auto.
  - destruct (t_running (timer_ i)); [|auto].
    destruct (waiter_ i) eqn:W; simpl; repeat split; simpl; congruence.
  - destruct (ctx_cancellable (parent i)); [|auto].
    destruct (ctx_err (parent i)); [auto|].
    destruct (waiter_ i) eqn:W; simpl; repeat split; simpl; congruence.
Qed.

Lemma run_permErr_idle p i evs :
  waiter_ i <> TimerWaiter -> waiter_ i <> RaceWaiter ->
  permErr (run p i evs) = permErr i.
Proof.
  revert i. induction evs as [|ev evs IH]; intros i T R; simpl.
  - reflexivity.
  - destruct (step_permErr_idle p i ev T R) as (E & T' & R').
    rewrite IH by assumption. exact E.
Qed.

(** In package netutil, the timer firing while the goroutine still
    waits latches [context.DeadlineExceeded] and closes [done]. *)
Lemma netutil_timer_fire_latches_deadline_exceeded par pat t0 evs :
  let i := run Netutil (NewIdleTracker par pat t0) evs in
  Done_closed i = false -> t_running (timer_ i) = true ->
  Err (step Netutil i EvTimerFire) = Some DeadlineExceeded /\
  Done_closed (step Netutil i EvTimerFire) = true.
Proof.
  intros i D R. pose proof (waiter_inv_run Netutil _ evs (waiter_inv_New Netutil par pat t0)) as W.
  fold i in W. unfold waiter_inv, Done_closed, Err in *. simpl. rewrite R.
  destruct (waiter_ i); simpl; try (destruct W; congruence); auto.
Qed.


(** *** Claims *)

(** C8: whatever the parent and the time of construction, a patience
    less than or equal to zero is replaced by the default of 15 minutes. *)
Theorem NewIdleTracker_default_patience (par : context) (pat : duration) (t0 : time) :
  pat <= 0 -> patience (NewIdleTracker par pat t0) = 15 * Minute.
Proof.
  intros H. unfold NewIdleTracker.
  destruct (Z.leb_spec pat 0) as [_|L]; [|lia].
  destruct (ctx_cancellable par), (ctx_err par); reflexivity.
Qed.

Lemma NewIdleTracker_default_patience_witness :
  -5 <= 0 /\ patience (NewIdleTracker live_parent (-5) 0) = 15 * Minute.
Proof.
  split; [lia|]. apply (NewIdleTracker_default_patience live_parent (-5) 0). lia.
Defined.

(** C6: [Deadline()] returns [(deadline, true)] when the dangling set is
    empty and [(time.Time{}, false)] when it holds a connection. *)
Theorem Deadline_only_when_idle (i : IdleTracker) :
  Deadline i = if decide (dangling i = ∅) then (deadline i, true) else (zero_time, false).
Proof.
  unfold Deadline. destruct (decide (dangling i = ∅)) as [E|E].
  - rewrite E, size_empty. reflexivity.
  - destruct (Nat.ltb_spec 0 (size (dangling i))) as [_|L]; [reflexivity|].
    exfalso. apply E. apply size_zero_iff. lia.
Qed.

(** C3, as the spec states it, fails: a connection that is hijacked
    leaves the set empty with the timer still stopped. *)
Lemma timer_running_iff_idle_counterexample :
  let i := run Netutil (NewIdleTracker live_parent (100 * Millisecond) 0)
             (conn_events [(1%nat, StateNew, 1); (1%nat, StateHijacked, 2)]) in
  ~ (t_running (timer_ i) = true <-> dangling i = ∅).
Proof.
  simpl. intros [_ H]. discriminate H. set_solver.
Qed.

(** C3 (amended): in every state reached from construction by
    [ConnState] notifications, the timer runs only while the dangling set
    is empty; when no connection was reported hijacked, it also runs
    whenever the set is empty. *)
Theorem timer_running_only_when_idle (p : pkg) (par : context) (pat : duration)
    (t0 : time) (evs : list (conn * http_ConnState * time)) :
  let i := run p (NewIdleTracker par pat t0) (conn_events evs) in
  (t_running (timer_ i) = true -> dangling i = ∅) /\
  (no_hijack evs = true -> (t_running (timer_ i) = true <-> dangling i = ∅)).
Proof.
  intros i. destruct (timer_inv_run p true (NewIdleTracker par pat t0) evs
                        (timer_inv_New par pat t0)) as [Hr Hh].
  fold i in Hr, Hh. split; [exact Hr|]. intros N. split; [exact Hr|].
  apply Hh. rewrite N. reflexivity.
Qed.

Lemma timer_running_only_when_idle_witness :
  let evs := [(1%nat, StateNew, 1); (1%nat, StateClosed, 2)] in
  no_hijack evs = true /\
  (t_running (timer_ (run Netutil (NewIdleTracker live_parent (100 * Millisecond) 0)
                        (conn_events evs))) = true <->
   dangling (run Netutil (NewIdleTracker live_parent (100 * Millisecond) 0)
               (conn_events evs)) = ∅).
Proof.
  split; [reflexivity|].
  apply (timer_running_only_when_idle Netutil live_parent (100 * Millisecond) 0
           [(1%nat, StateNew, 1); (1%nat, StateClosed, 2)]).
  reflexivity.
Defined.

(** C7: when an idle or closed notification empties a non-empty set at a
    time later than the last deadline computation, the new deadline is
    [now + patience] and lies strictly after the previous one. *)
Theorem deadline_advances (p : pkg) (par : context) (pat : duration) (t0 : time)
    (evs : list event) (c : conn) (st : http_ConnState) (now : time) :
  let '(i, tc) := run_last p (NewIdleTracker par pat t0) t0 evs in
  st = StateIdle \/ st = StateClosed ->
  dangling i <> ∅ -> tc < now ->
  dangling (ConnState i c st now) = ∅ ->
  deadline (ConnState i c st now) = now + patience i /\
  deadline i < deadline (ConnState i c st now).
Proof.
  pose proof (deadline_inv_run p _ t0 evs (deadline_inv_New par pat t0)) as Inv.
  destruct (run_last p (NewIdleTracker par pat t0) t0 evs) as [i tc].
  simpl in Inv. destruct Inv as [P D].
  intros Hst Hne Hlt He.
  assert (0 < size (dangling i))%nat as L.
  { destruct (size (dangling i)) eqn:S; [|lia]. exfalso. apply Hne.
    apply size_zero_iff. exact S. }
  assert (size (dangling i ∖ {[c]}) = 0%nat) as E.
  { apply size_zero_iff.
    destruct Hst as [-> | ->]; unfold ConnState in He; simpl in He;
      repeat case_match; simpl in He; exact He. }
  unfold ConnState.
  destruct Hst as [-> | ->]; simpl;
    destruct (Nat.ltb_spec 0 (size (dangling i))); try lia;
    rewrite E; simpl; split; lia.
Qed.

Lemma deadline_advances_witness :
  let evs := [EvConnState 1%nat StateNew (10 * Millisecond)] in
  let now := 30 * Millisecond in
  let '(i, tc) := run_last Netutil (NewIdleTracker live_parent (100 * Millisecond) 0) 0 evs in
  (StateClosed = StateIdle \/ StateClosed = StateClosed) /\
  dangling i <> ∅ /\ tc < now /\
  dangling (ConnState i 1%nat StateClosed now) = ∅ /\
  deadline (ConnState i 1%nat StateClosed now) = now + patience i /\
  deadline i < deadline (ConnState i 1%nat StateClosed now).
Proof.
  pose proof (deadline_advances Netutil live_parent (100 * Millisecond) 0
                [EvConnState 1%nat StateNew (10 * Millisecond)] 1%nat StateClosed
                (30 * Millisecond)) as T.
  simpl in T |- *.
  assert (H1 : StateClosed = StateIdle \/ StateClosed = StateClosed) by (right; reflexivity).
  assert (H2 : ({[1%nat]} ∪ (∅ : gset conn)) <> ∅) by set_solver.
  assert (H3 : (0 < 30 * Millisecond)) by (unfold Millisecond; lia).
  assert (H4 : ({[1%nat]} ∪ (∅ : gset conn)) ∖ {[1%nat]} = ∅) by set_solver.
  split; [exact H1|]. split; [exact H2|]. split; [exact H3|]. split; [exact H4|].
  apply T; assumption.
Defined.


(** C1 fails in package idletracker: with a cancellable parent, the
    timer winning the race closes [done] but leaves [Err()] at [nil],
    because the branch only writes [permErr] when it is already set. *)
Theorem idletracker_timer_first_Err_nil :
  let i := run Idletracker (NewIdleTracker live_parent (100 * Millisecond) 0)
             [EvTimerFire] in
  Done_closed i = true /\ Err i = None.
Proof. split; reflexivity. Qed.

(** C10 fails: on the same parent, patience and events, the two packages
    disagree on [Err()] when the timer wins the race. *)
Theorem packages_disagree_when_timer_wins :
  let a := run Netutil (NewIdleTracker live_parent (100 * Millisecond) 0) [EvTimerFire] in
  let b := run Idletracker (NewIdleTracker live_parent (100 * Millisecond) 0) [EvTimerFire] in
  Err a = Some DeadlineExceeded /\ Err b = None /\ Err a <> Err b /\
  Done_closed a = true /\ Done_closed b = true.
Proof. vm_compute. repeat split; discriminate. Qed.

(** *** Further properties of the code *)

Lemma step_dangling p i ev c :
  c ∈ dangling (step p i ev) <->
  match ev with
  | EvConnState c' st _ =>
      if Nat.eqb c c' then
        match st with StateNew | StateActive => True | _ => False end
      else c ∈ dangling i
  | _ => c ∈ dangling i
  end.
Proof.
  destruct ev as [c' st now| |e]; simpl.
  - unfold ConnState.
    destruct (Nat.eqb_spec c c') as [->|N];
      destruct st; simpl; repeat case_match; simpl; set_solver.
  - repeat case_match; simpl; reflexivity.
  - repeat case_match; simpl; reflexivity.
Qed.

Lemma run_dangling p i evs c :
  c ∈ dangling (run p i evs) <->
  match last_state c evs with
  | Some (StateNew | StateActive) => True
  | Some _ => False
  | None => c ∈ dangling i
  end.
Proof.
  revert i. induction evs as [|ev evs IH]; intros i; simpl; [reflexivity|].
  rewrite IH. cbn [last_state].
  destruct ev as [c' st now| |e];
    destruct (last_state c evs) as [s|]; try reflexivity;
    rewrite step_dangling; try reflexivity.
  destruct (Nat.eqb c c'); [destruct st|]; reflexivity.
Qed.

(** The dangling set holds exactly the connections whose last reported
    state is new or active. *)
Theorem dangling_is_last_reported_live (p : pkg) (par : context) (pat : duration)
    (t0 : time) (evs : list event) (c : conn) :
  c ∈ dangling (run p (NewIdleTracker par pat t0) evs) <-> reported_live c evs = true.
Proof.
  rewrite run_dangling. unfold reported_live.
  assert (dangling (NewIdleTracker par pat t0) = ∅) as E.
  { unfold NewIdleTracker. destruct (ctx_cancellable par), (ctx_err par); reflexivity. }
  rewrite E. destruct (last_state c evs) as [[]|]; split; intros H;
    try discriminate; try contradiction; try exact I; try reflexivity; set_solver.
Qed.

Lemma run_patience p i evs : patience (run p i evs) = patience i.
Proof.
  revert i. induction evs as [|ev evs IH]; intros i; simpl; [reflexivity|].
  rewrite IH. apply step_patience.
Qed.

(** A positive patience is kept as given, and no event changes it. *)
Theorem patience_fixed (p : pkg) (par : context) (pat : duration) (t0 : time)
    (evs : list event) :
  0 < pat -> patience (run p (NewIdleTracker par pat t0) evs) = pat.
Proof.
  intros H. rewrite run_patience. unfold NewIdleTracker.
  destruct (Z.leb_spec pat 0); [lia|].
  destruct (ctx_cancellable par), (ctx_err par); reflexivity.
Qed.

Lemma patience_fixed_witness :
  0 < 100 * Millisecond /\
  patience (run Netutil (NewIdleTracker live_parent (100 * Millisecond) 0)
              [EvConnState 1%nat StateNew 5; EvTimerFire]) = 100 * Millisecond.
Proof.
  split; [unfold Millisecond; lia|].
  apply (patience_fixed Netutil live_parent (100 * Millisecond) 0
           [EvConnState 1%nat StateNew 5; EvTimerFire]).
  unfold Millisecond; lia.
Defined.

(** Connection notifications never change [Err()] and never close
    [Done()]. *)
Theorem ConnState_keeps_Err_and_Done (i : IdleTracker) (c : conn)
    (st : http_ConnState) (now : time) :
  Err (ConnState i c st now) = Err i /\ Done_closed (ConnState i c st now) = Done_closed i.
Proof.
  destruct (ConnState_frame i c st now) as (E & D & _). split; assumption.
Qed.

Lemma step_done p i ev : done i = true -> done (step p i ev) = true.
Proof.
  intros H. destruct ev as [c st now| |e]; simpl.
  - destruct (ConnState_frame i c st now) as (_ & -> & _). exact H.
  - repeat case_match; simpl; auto.
  - repeat case_match; simpl; auto.
Qed.

Lemma run_done p i evs : done i = true -> done (run p i evs) = true.
Proof.
  revert i. induction evs as [|ev evs IH]; intros i H; simpl; [exact H|].
  apply IH. apply step_done. exact H.
Qed.

(** A parent already cancelled at construction: the tracker is done at
    once with the parent's error and a deadline of [now], and keeps that
    error whatever happens next. *)
Theorem cancelled_parent_done_at_once (p : pkg) (par : context) (pat : duration)
    (t0 : time) (e : error) (evs : list event) :
  ctx_cancellable par = true -> ctx_err par = Some e ->
  let i := NewIdleTracker par pat t0 in
  Err i = Some e /\ Done_closed i = true /\ Deadline i = (t0, true) /\
  Err (run p i evs) = Some e /\ Done_closed (run p i evs) = true.
Proof.
  intros C E i.
  assert (i = {| dangling := ∅; timer_ := NewTimer t0 (patience i); deadline := t0;
                 patience := patience i; parent := par; done := true;
                 permErr := Some e; waiter_ := NoWaiter |}) as Hi.
  { subst i. unfold NewIdleTracker. rewrite C, E. reflexivity. }
  rewrite Hi. unfold Err, Done_closed, Deadline. simpl.
  rewrite ?size_empty. simpl. split; [reflexivity|]. split; [reflexivity|].
  split; [reflexivity|]. split.
  - rewrite run_permErr_idle by discriminate. reflexivity.
  - apply run_done. reflexivity.
Qed.

Lemma cancelled_parent_done_at_once_witness :
  ctx_cancellable {| ctx_cancellable := true; ctx_err := Some Canceled |} = true /\
  ctx_err {| ctx_cancellable := true; ctx_err := Some Canceled |} = Some Canceled /\
  Err (run Idletracker
         (NewIdleTracker {| ctx_cancellable := true; ctx_err := Some Canceled |}
            (100 * Millisecond) 0) [EvTimerFire]) = Some Canceled.
Proof.
  split; [reflexivity|]. split; [reflexivity|].
  apply (cancelled_parent_done_at_once Idletracker
           {| ctx_cancellable := true; ctx_err := Some Canceled |}
           (100 * Millisecond) 0 Canceled [EvTimerFire]); reflexivity.
Defined.

Lemma uncancellable_step p i ev :
  ctx_cancellable (parent i) = false ->
  (waiter_ i = TimerWaiter /\ permErr i = None /\ done i = false \/
   waiter_ i = Finished /\ permErr i = Some DeadlineExceeded /\ done i = true) ->
  ctx_cancellable (parent (step p i ev)) = false /\
  (waiter_ (step p i ev) = TimerWaiter /\ permErr (step p i ev) = None /\
   done (step p i ev) = false \/
   waiter_ (step p i ev) = Finished /\ permErr (step p i ev) = Some DeadlineExceeded /\
   done (step p i ev) = true).
Proof.
  intros C H. destruct ev as [c st now| |e]; simpl.
  - destruct (ConnState_frame i c st now) as (-> & -> & -> & _ & ->). auto.
  - destruct (t_running (timer_ i)); [|auto].
    destruct H as [(W & E & D) | (W & E & D)]; rewrite W; simpl; auto.
  - rewrite C. auto.
Qed.

(** With a parent that can never be cancelled, only the timer ends the
    tracker, and then with [context.DeadlineExceeded], in both packages;
    cancelling such a parent does nothing. *)
Theorem uncancellable_parent_only_timer (p : pkg) (par : context) (pat : duration)
    (t0 : time) (evs : list event) :
  ctx_cancellable par = false ->
  let i := run p (NewIdleTracker par pat t0) evs in
  (Err i = None /\ Done_closed i = false) \/
  (Err i = Some DeadlineExceeded /\ Done_closed i = true).
Proof.
  intros C. unfold Err, Done_closed.
  assert (forall j, ctx_cancellable (parent j) = false ->
            (waiter_ j = TimerWaiter /\ permErr j = None /\ done j = false \/
             waiter_ j = Finished /\ permErr j = Some DeadlineExceeded /\ done j = true) ->
            (permErr (run p j evs) = None /\ done (run p j evs) = false) \/
            (permErr (run p j evs) = Some DeadlineExceeded /\ done (run p j evs) = true))
    as G.
  { induction evs as [|ev evs IH]; intros j Cj Hj; simpl.
    - destruct Hj as [(_ & ? & ?) | (_ & ? & ?)]; auto.
    - destruct (uncancellable_step p j ev Cj Hj) as [C' H']. apply IH; assumption. }
  apply G; unfold NewIdleTracker; rewrite C; simpl; auto.
Qed.

Lemma uncancellable_parent_only_timer_witness :
  ctx_cancellable {| ctx_cancellable := false; ctx_err := None |} = false /\
  Err (run Idletracker (NewIdleTracker {| ctx_cancellable := false; ctx_err := None |}
                          (100 * Millisecond) 0) [EvParentCancel Canceled; EvTimerFire])
    = Some DeadlineExceeded.
Proof.
  split; [reflexivity|].
  destruct (uncancellable_parent_only_timer Idletracker
              {| ctx_cancellable := false; ctx_err := None |} (100 * Millisecond) 0
              [EvParentCancel Canceled; EvTimerFire] eq_refl) as [[_ D] | [E _]].
  - vm_compute in D. discriminate D.
  - exact E.
Defined.

Definition cancellable_inv (i : IdleTracker) : Prop :=
  waiter_ i <> TimerWaiter /\
  (waiter_ i = RaceWaiter ->
   ctx_cancellable (parent i) = true /\ ctx_err (parent i) = None).

Lemma cancellable_inv_step p i ev : cancellable_inv i -> cancellable_inv (step p i ev).
Proof.
  unfold cancellable_inv. intros [T R]. destruct ev as [c st now| |e]; simpl.
  - destruct (ConnState_frame i c st now) as (_ & _ & -> & _ & ->). auto.
  - destruct (t_running (timer_ i)); [|exact (conj T R)].
    destruct (waiter_ i) eqn:W; simpl; try congruence; split; intros; congruence.
  - destruct (ctx_cancellable (parent i)) eqn:C; [|split; [exact T | intros H; destruct (R H); congruence]].
    destruct (ctx_err (parent i)) eqn:E; [split; [exact T | intros H; destruct (R H); congruence]|].
    destruct (waiter_ i) eqn:W; simpl; rewrite ?W; split; intros; congruence.
Qed.

Lemma cancellable_inv_run p i evs : cancellable_inv i -> cancellable_inv (run p i evs).
Proof.
  revert i. induction evs as [|ev evs IH]; intros i H; simpl; [exact H|].
  apply IH. apply cancellable_inv_step. exact H.
Qed.

(** With a cancellable parent, cancelling it while the tracker is not
    yet done ends the tracker with exactly the parent's error, in both
    packages. *)
Theorem parent_cancel_propagates (p : pkg) (par : context) (pat : duration) (t0 : time)
    (evs : list event) (e : error) :
  ctx_cancellable par = true ->
  let i := run p (NewIdleTracker par pat t0) evs in
  Done_closed i = false ->
  Err (step p i (EvParentCancel e)) = Some e /\
  Done_closed (step p i (EvParentCancel e)) = true.
Proof.
  intros C i D.
  assert (cancellable_inv (NewIdleTracker par pat t0)) as I0.
  { unfold cancellable_inv, NewIdleTracker. rewrite C. simpl.
    destruct (ctx_err par) eqn:E; simpl; split; try discriminate; auto. }
  destruct (cancellable_inv_run p _ evs I0) as [T R]. fold i in T, R.
  pose proof (waiter_inv_run p _ evs (waiter_inv_New p par pat t0)) as W. fold i in W.
  unfold waiter_inv, Done_closed, Err in *.
  destruct (waiter_ i) eqn:Wi; try congruence;
    try (destruct W as [W _]; congruence).
  destruct (R eq_refl) as [Cp Ep]. simpl. rewrite Cp, Ep, Wi. simpl. auto.
Qed.

Lemma parent_cancel_propagates_witness :
  ctx_cancellable live_parent = true /\
  Done_closed (run Idletracker (NewIdleTracker live_parent (100 * Millisecond) 0)
                 [EvConnState 1%nat StateNew 5]) = false /\
  Err (step Idletracker
         (run Idletracker (NewIdleTracker live_parent (100 * Millisecond) 0)
            [EvConnState 1%nat StateNew 5]) (EvParentCancel Canceled)) = Some Canceled.
Proof.
  split; [reflexivity|]. split; [reflexivity|].
  apply (parent_cancel_propagates Idletracker live_parent (100 * Millisecond) 0
           [EvConnState 1%nat StateNew 5] Canceled); reflexivity.
Defined.

(** *** The two packages side by side *)

Lemma agree_step a b ev :
  waiter_inv Netutil a -> agree a b -> agree (step Netutil a ev) (step Idletracker b ev).
Proof.
  intros W [eb [-> H]].
  destruct a as [d t dl pa par dn pe w]. unfold waiter_inv in W. simpl in W, H.
  destruct ev as [c st now| |e].
  - exists eb. split.
    + unfold step, ConnState, with_err; simpl.
      destruct st; simpl; repeat case_match; reflexivity.
    + destruct (ConnState_frame {| dangling := d; timer_ := t; deadline := dl;
                  patience := pa; parent := par; done := dn; permErr := pe;
                  waiter_ := w |} c st now) as (E & _ & Wt & _).
      simpl step. rewrite E, Wt. exact H.
  - unfold step, with_err, set_timer, finish; simpl.
    destruct (t_running t).
    + destruct w; simpl.
      * exists eb. split; [reflexivity | exact H].
      * exists (Some DeadlineExceeded). split; [reflexivity | left; reflexivity].
      * destruct W as [-> _]. destruct H as [-> | (? & _ & ?)]; [|discriminate].
        exists None. split; [reflexivity|]. right. auto.
      * exists eb. split; [reflexivity | exact H].
    + exists eb. split; [reflexivity | exact H].
  - unfold step, with_err, set_parent, finish; simpl.
    destruct (ctx_cancellable par); [|exists eb; split; [reflexivity | exact H]].
    destruct (ctx_err par); [exists eb; split; [reflexivity | exact H]|].
    destruct w; simpl.
    + exists eb. split; [reflexivity | exact H].
    + exists eb. split; [reflexivity | exact H].
    + exists (Some e). split; [reflexivity | left; reflexivity].
    + exists eb. split; [reflexivity | exact H].
Qed.

Lemma agree_run a b evs :
  waiter_inv Netutil a -> agree a b -> agree (run Netutil a evs) (run Idletracker b evs).
Proof.
  revert a b. induction evs as [|ev evs IH]; intros a b W H; simpl; [exact H|].
  apply IH; [apply waiter_inv_step; exact W | apply agree_step; assumption].
Qed.

(** On the same parent, patience and events, the two packages agree on
    [Done()], [Deadline()] and the dangling set; their [Err()] agree too,
    except that package idletracker may report [nil] where package
    netutil reports [context.DeadlineExceeded]. *)
Theorem packages_agree_but_on_deadline_error (par : context) (pat : duration)
    (t0 : time) (evs : list event) :
  let a := run Netutil (NewIdleTracker par pat t0) evs in
  let b := run Idletracker (NewIdleTracker par pat t0) evs in
  Done_closed b = Done_closed a /\ Deadline b = Deadline a /\ dangling b = dangling a /\
  (Err b = Err a \/ (Err a = Some DeadlineExceeded /\ Err b = None)).
Proof.
  intros a b.
  assert (agree a b) as [eb [Hb H]].
  { apply agree_run; [apply waiter_inv_New|].
    exists (permErr (NewIdleTracker par pat t0)). split; [|left; reflexivity].
    unfold NewIdleTracker. destruct (ctx_cancellable par), (ctx_err par); reflexivity. }
  rewrite Hb. unfold Done_closed, Deadline, Err, with_err. simpl.
  split; [reflexivity|]. split; [reflexivity|]. split; [reflexivity|].
  destruct H as [-> | (E & -> & _)]; [left; reflexivity | right; auto].
Qed.

(** *** Timer, deadline and time *)

Lemma run_fires_stopped p i n :
  t_running (timer_ i) = false -> run p i (repeat EvTimerFire n) = i.
Proof.
  intros R. induction n as [|n IH]; simpl; [reflexivity|].
  rewrite R. exact IH.
Qed.

(** When the last connection is reported hijacked, the timer stays
    stopped: no timer event ends the tracker, and [Deadline()] keeps
    reporting the deadline computed before that connection arrived. *)
Theorem hijacked_last_connection_stalls (p : pkg) (par : context) (pat : duration)
    (t0 t1 t2 : time) (c : conn) (n : nat) :
  ctx_err par = None ->
  let i := run p (NewIdleTracker par pat t0)
             ([EvConnState c StateNew t1; EvConnState c StateHijacked t2] ++
              repeat EvTimerFire n) in
  Done_closed i = false /\ Err i = None /\
  Deadline i = (deadline (NewIdleTracker par pat t0), true).
Proof.
  intros E i. subst i. rewrite run_app.
  set (j := run p (NewIdleTracker par pat t0)
              [EvConnState c StateNew t1; EvConnState c StateHijacked t2]).
  assert (t_running (timer_ j) = false /\ done j = false /\ permErr j = None /\
          dangling j = ∅ /\ deadline j = deadline (NewIdleTracker par pat t0))
    as (R & D & P & Dg & Dl).
  { subst j. unfold run. simpl. unfold ConnState, NewIdleTracker. rewrite E.
    destruct (ctx_cancellable par); simpl; rewrite ?size_empty; simpl;
      (split; [reflexivity|]); (split; [reflexivity|]); (split; [reflexivity|]);
      (split; [set_solver | reflexivity]). }
  rewrite run_fires_stopped by exact R.
  unfold Done_closed, Err, Deadline. rewrite D, P, Dg, Dl, size_empty. auto.
Qed.

Lemma hijacked_last_connection_stalls_witness :
  ctx_err live_parent = None /\
  Done_closed (run Netutil (NewIdleTracker live_parent (100 * Millisecond) 0)
                 ([EvConnState 7%nat StateNew 1; EvConnState 7%nat StateHijacked 2] ++
                  repeat EvTimerFire 3)) = false.
Proof.
  split; [reflexivity|].
  apply (hijacked_last_connection_stalls Netutil live_parent (100 * Millisecond) 0 1 2
           7%nat 3); reflexivity.
Defined.

Lemma step_deadline_other p i ev :
  (forall c st now, ev <> EvConnState c st now) -> deadline (step p i ev) = deadline i.
Proof.
  intros N. destruct ev as [c st now| |e].
  - exfalso. exact (N c st now eq_refl).
  - simpl. repeat case_match; reflexivity.
  - simpl. repeat case_match; reflexivity.
Qed.

Lemma deadline_mono_run p i t evs :
  0 < patience i -> deadline i <= t + patience i -> stamps_from t evs = true ->
  deadline i <= deadline (run p i evs) /\
  deadline (run p i evs) <= last_stamp t evs + patience i.
Proof.
  revert i t. induction evs as [|ev evs IH]; intros i t P D S; [simpl; lia|].
  destruct ev as [c st now| |e].
  - simpl in S. apply andb_prop in S as [L S]. apply Z.leb_le in L.
    assert (deadline i <= deadline (ConnState i c st now) /\
            deadline (ConnState i c st now) <= now + patience i) as [D1 D2].
    { unfold ConnState. destruct st; simpl; repeat case_match; simpl; lia. }
    destruct (ConnState_frame i c st now) as (_ & _ & _ & Pa & _).
    destruct (IH (ConnState i c st now) now) as [I1 I2]; [lia | lia | exact S|].
    change (run p i (EvConnState c st now :: evs)) with (run p (ConnState i c st now) evs).
    cbn [last_stamp]. rewrite Pa in I2. split; lia.
  - change (run p i (EvTimerFire :: evs)) with (run p (step p i EvTimerFire) evs).
    cbn [last_stamp]. simpl in S.
    pose proof (step_deadline_other p i EvTimerFire ltac:(intros; discriminate)) as Dl.
    destruct (IH (step p i EvTimerFire) t) as [I1 I2];
      rewrite ?step_patience, ?Dl; try assumption.
    rewrite step_patience in I2. lia.
  - change (run p i (EvParentCancel e :: evs)) with (run p (step p i (EvParentCancel e)) evs).
    cbn [last_stamp]. simpl in S.
    pose proof (step_deadline_other p i (EvParentCancel e) ltac:(intros; discriminate)) as Dl.
    destruct (IH (step p i (EvParentCancel e)) t) as [I1 I2];
      rewrite ?step_patience, ?Dl; try assumption.
    rewrite step_patience in I2. lia.
Qed.

Lemma stamps_from_app t evs1 evs2 :
  stamps_from t (evs1 ++ evs2) = stamps_from t evs1 && stamps_from (last_stamp t evs1) evs2.
Proof.
  revert t. induction evs1 as [|ev evs IH]; intros t; simpl; [reflexivity|].
  destruct ev; [rewrite IH, andb_assoc; reflexivity | apply IH | apply IH].
Qed.

(** With notifications whose times never go back (from the time of
    construction on), the tracker's deadline never moves back: each
    later state has a deadline at least as late as each earlier one. *)
Theorem deadline_never_moves_back (p : pkg) (par : context) (pat : duration) (t0 : time)
    (evs1 evs2 : list event) :
  stamps_from t0 (evs1 ++ evs2) = true ->
  deadline (run p (NewIdleTracker par pat t0) evs1) <=
  deadline (run p (NewIdleTracker par pat t0) (evs1 ++ evs2)).
Proof.
  intros S. rewrite stamps_from_app in S. apply andb_prop in S as [S1 S2].
  destruct (deadline_inv_New par pat t0) as [P D].
  destruct (deadline_mono_run p _ t0 evs1 P D S1) as [_ B].
  rewrite run_app.
  apply (deadline_mono_run p _ (last_stamp t0 evs1) evs2); [| |exact S2];
    rewrite run_patience; [exact P | exact B].
Qed.

Lemma deadline_never_moves_back_witness :
  let evs1 := [EvConnState 1%nat StateNew 10] in
  let evs2 := [EvConnState 1%nat StateIdle 20; EvTimerFire] in
  stamps_from 0 (evs1 ++ evs2) = true /\
  deadline (run Netutil (NewIdleTracker live_parent (100 * Millisecond) 0) evs1) <=
  deadline (run Netutil (NewIdleTracker live_parent (100 * Millisecond) 0) (evs1 ++ evs2)).
Proof.
  split; [reflexivity|].
  apply (deadline_never_moves_back Netutil live_parent (100 * Millisecond) 0
           [EvConnState 1%nat StateNew 10] [EvConnState 1%nat StateIdle 20; EvTimerFire]).
  reflexivity.
Defined.
End IdleTrackerProofs.

(** ** Proofs about acceptedConnection *)

Module ListenerProofs.
Import Listener.

Lemma linv_fresh : linv accepted_from_fd.
Proof. intros H. left. reflexivity. Qed.

Lemma lrun_cons c ev evs :
  lrun c (ev :: evs) =
  (fst (lrun (fst (lstep c ev)) evs), snd (lstep c ev) :: snd (lrun (fst (lstep c ev)) evs)).
Proof.
  simpl. destruct (lstep c ev) as [c' o]. simpl. destruct (lrun c' evs). reflexivity.
Qed.

Lemma linv_lstep c ev : linv c -> linv (fst (lstep c ev)).
Proof.
  destruct c as [fo dc pe]. unfold linv. simpl. intros H.
  destruct ev as [fc| |]; simpl.
  - destruct pe as [e|]; simpl; [exact H|].
    destruct dc as [ch|]; simpl; [exact H|].
    destruct fc; simpl; auto. intros N; congruence.
  - intros N. specialize (H N). destruct H as [-> | ->]; right; reflexivity.
  - destruct dc as [ch|]; simpl; [|exact H].
    destruct (cascadingCloser_Close ch) as [[ch' b]|]; simpl; [|exact H].
    intros _. apply H. discriminate.
Qed.




Lemma lstep_permErr_set c ev e :
  permErr c = Some e ->
  permErr (fst (lstep c ev)) = Some e /\
  match snd (lstep c ev) with OAccept r => r = AcceptErr e | _ => True end.
Proof.
  destruct c as [fo dc pe]. simpl. intros ->.
  destruct ev as [fc| |]; simpl; auto.
  destruct dc as [ch|]; simpl; auto.
  destruct (cascadingCloser_Close ch) as [[ch' b]|]; simpl; auto.
Qed.

Lemma lrun_permErr_set c evs e :
  permErr c = Some e ->
  permErr (fst (lrun c evs)) = Some e /\
  Forall (fun o => match o with OAccept r => r = AcceptErr e | _ => True end)
    (snd (lrun c evs)).
Proof.
  revert c. induction evs as [|ev evs IH]; intros c H.
  - simpl. split; [exact H | constructor].
  - rewrite lrun_cons. simpl.
    destruct (lstep_permErr_set c ev e H) as [P O].
    destruct (IH _ P) as [P' F]. split; [exact P'|]. constructor; assumption.
Qed.

Lemma lrun_chan_closes c evs :
  ~ In OPanic (snd (lrun c evs)) /\
  chan_closed_flag (fst (lrun c evs)) =
    chan_closed_flag c || existsb is_conn_close (snd (lrun c evs)) /\
  (Nat.b2n (chan_closed_flag c) + chan_closes (snd (lrun c evs)) =
     Nat.b2n (chan_closed_flag (fst (lrun c evs))))%nat.
Proof.
  revert c. induction evs as [|ev evs IH]; intros c.
  - simpl. rewrite orb_false_r. split; [tauto|]. split; [reflexivity|].
    unfold chan_closes. simpl. lia.
  - rewrite lrun_cons. simpl fst. simpl snd.
    destruct (IH (fst (lstep c ev))) as (NP & FL & CT).
    unfold chan_closes in *. destruct c as [fo dc pe].
    destruct ev as [fc| |]; simpl in *.
    + assert (chan_closed_flag (fst (Accept {| file_open := fo; doneChan := dc; permErr := pe |} fc))
              = chan_closed_flag {| file_open := fo; doneChan := dc; permErr := pe |}) as A.
      { unfold Accept; destruct pe, dc, fc; reflexivity. }
      destruct (Accept _ fc) as [c' r]. simpl in *.
      split; [intros [E|E]; [discriminate | contradiction]|].
      rewrite <- A. split; [exact FL | exact CT].
    + split; [intros [E|E]; [discriminate | contradiction]|]. split; [exact FL | exact CT].
    + destruct dc as [ch|]; simpl in *.
      * unfold cascadingCloser_Close, recv_ready, close in *.
        unfold chan_closed_flag in *. simpl in *.
        destruct (chan_closed ch) eqn:C; simpl in *;
          (split; [intros [E|E]; [discriminate | contradiction]|]);
          try rewrite C in FL; try rewrite C in CT; simpl in *;
          rewrite ?orb_true_r in *; simpl in *; (split; [congruence | lia]).
      * split; [intros [E|E]; [discriminate | contradiction]|]. split; [exact FL | exact CT].
Qed.





(** *** Claims *)




(** C5: [Close] keeps a prior error and otherwise sets [os.ErrClosed];
    once [permErr] is set it is never changed, and every later [Accept]
    returns exactly it. *)
Theorem permErr_latched_listener (c : acceptedConnection) (evs : list levent) :
  permErr (fst (Close c)) =
    Some (match permErr c with Some e => e | None => ErrClosed end) /\
  match permErr c with
  | Some e =>
      permErr (fst (lrun c evs)) = Some e /\
      Forall (fun o => match o with OAccept r => r = AcceptErr e | _ => True end)
        (snd (lrun c evs))
  | None => True
  end.
Proof.
  split.
  - destruct c as [fo dc [e|]]; reflexivity.
  - destruct (permErr c) as [e|] eqn:E; [|exact I].
    apply lrun_permErr_set. exact E.
Qed.

(** C9: whatever calls are made on the listener and on the connection it
    handed out, the connection's [Close] never closes [doneChan] twice
    (no panic), and [doneChan] is closed exactly once as soon as that
    [Close] has been called at least once. *)
Theorem cascadingCloser_closes_once (evs : list levent) :
  let outs := snd (lrun accepted_from_fd evs) in
  ~ In OPanic outs /\
  chan_closes outs = if existsb is_conn_close outs then 1%nat else 0%nat.
Proof.
  destruct (lrun_chan_closes accepted_from_fd evs) as (NP & FL & CT).
  simpl. split; [exact NP|]. simpl in FL, CT. rewrite FL in CT.
  destruct (existsb is_conn_close _); simpl in CT; lia.
Qed.

(** *** The waiting [Accept] *)

Lemma Accept_after_conn c fc :
  doneChan c <> None -> linv c ->
  snd (Accept c fc) = if closed_any c then AcceptErr ErrClosed else AcceptWaitThenClosed.
Proof.
  destruct c as [fo [ch|] pe]; simpl; [|intros N; exfalso; apply N; reflexivity].
  intros _ L. unfold linv in L. simpl in L. unfold closed_any, chan_closed_flag. simpl.
  destruct (L ltac:(discriminate)) as [-> | ->]; simpl; [|reflexivity].
  unfold tailWaitUntilFirstIsDone. destruct (chan_closed ch); reflexivity.
Qed.

Lemma closed_any_lrun c evs :
  doneChan c <> None -> linv c ->
  doneChan (fst (lrun c evs)) <> None /\ linv (fst (lrun c evs)) /\
  closed_any (fst (lrun c evs)) = closed_any c || existsb is_close_event evs.
Proof.
  revert c. induction evs as [|ev evs IH]; intros c N L.
  - simpl. rewrite orb_false_r. auto.
  - rewrite lrun_cons. simpl fst.
    assert (doneChan (fst (lstep c ev)) <> None /\
            closed_any (fst (lstep c ev)) = closed_any c || is_close_event ev) as [N' C'].
    { destruct c as [fo [ch|] pe]; [|exfalso; apply N; reflexivity].
      unfold linv in L. simpl in L.
      destruct ev as [fc| |]; simpl.
      - destruct pe; simpl; (split; [discriminate|]);
          unfold closed_any, chan_closed_flag; simpl; rewrite ?orb_false_r; reflexivity.
      - unfold closed_any; simpl. split; [discriminate|].
        destruct pe; rewrite orb_true_r; reflexivity.
      - unfold cascadingCloser_Close, recv_ready, close.
        destruct (chan_closed ch) eqn:Cc; simpl; split; try discriminate;
          unfold closed_any, chan_closed_flag; simpl; rewrite ?Cc;
          destruct pe; reflexivity. }
    destruct (IH (fst (lstep c ev)) N' (linv_lstep c ev L)) as (N2 & L2 & C2).
    split; [exact N2|]. split; [exact L2|]. rewrite C2, C'. simpl.
    rewrite orb_assoc. reflexivity.
Qed.

(** After the one connection has been handed out, a further [Accept]
    waits on the connection exactly when neither the listener nor the
    connection has been closed since; otherwise it returns
    [os.ErrClosed] at once. *)
Theorem Accept_waits_until_a_close (fc : fileconn_result) (evs : list levent) :
  let c := fst (lrun accepted_from_fd (LAccept FileConnOk :: evs)) in
  snd (Accept c fc) =
    if existsb is_close_event evs then AcceptErr ErrClosed else AcceptWaitThenClosed.
Proof.
  set (c1 := fst (lstep accepted_from_fd (LAccept FileConnOk))).
  assert (doneChan c1 <> None) as N by discriminate.
  assert (linv c1) as L by (apply linv_lstep; exact linv_fresh).
  destruct (closed_any_lrun c1 evs N L) as (N' & L' & C').
  intros c. unfold c. rewrite lrun_cons. cbn [fst]. fold c1.
  rewrite (Accept_after_conn _ fc N' L'), C'. reflexivity.
Qed.
End ListenerProofs.
